(** * NekoVoxel: container arithmetic, the map's node-level edit protocol
      and the voxel manipulator

    A shallow embedding of [src/util/numeric.h] (container arithmetic on
    [s32]) and of the map header ([MapEditEvent], [Map], [ServerMap],
    [MMVManip]), followed by the properties of the specification that are
    stated about them. *)

From Stdlib Require Import ZArith Lia.
From stdpp Require Import base numbers option list sorting gmap.

Local Open Scope Z_scope.

(** ** Signed 32-bit integers ([s32])

    An [s32] is a [Z] in [[-2^31, 2^31)].  Arithmetic that leaves the range
    is folded back by [wrap_s32] (two's complement), so every operation
    below is total. *)

Module S32.

Definition s32_min : Z := - 2 ^ 31.
Definition s32_max : Z := 2 ^ 31 - 1.

Definition in_s32 (z : Z) : Prop := s32_min <= z <= s32_max.

Definition wrap_s32 (z : Z) : Z := (z + 2 ^ 31) mod 2 ^ 32 - 2 ^ 31.

Definition add (a b : Z) : Z := wrap_s32 (a + b).
Definition sub (a b : Z) : Z := wrap_s32 (a - b).
Definition mul (a b : Z) : Z := wrap_s32 (a * b).

(** C++ [/] on integers truncates toward zero: [Z.quot]. *)
Definition div (a b : Z) : Z := wrap_s32 (Z.quot a b).

(** [&] on two's complement integers. *)
Definition bit_and (a b : Z) : Z := Z.land a b.

End S32.

(** ** [util/numeric.h] *)

Module Numeric.

(** [#define rangelim(d, min, max)
      ((d) < (min) ? (min) : ((d) > (max) ? (max) : (d)))] *)
Definition rangelim (d min max : Z) : Z :=
  if d <? min then min else if d >? max then max else d.

(** [inline s32 getContainerPos(s32 p, s32 d)
      { return (p >= 0 ? p : p - d + 1) / d; }] *)
Definition getContainerPos (p d : Z) : Z :=
  S32.div (if p >=? 0 then p else S32.add (S32.sub p d) 1) d.

(** [inline void getContainerPosWithOffset(s32 p, s32 d,
      s32 &container, s32 &offset)]; the two out-parameters are returned
    as a pair [(container, offset)]. *)
Definition getContainerPosWithOffset (p d : Z) : Z * Z :=
  let container := S32.div (if p >=? 0 then p else S32.add (S32.sub p d) 1) d in
  let offset := S32.bit_and p (S32.sub d 1) in
  (container, offset).

(** The coordinate range the container arithmetic is documented for. *)
Definition coord_max : Z := 2 ^ 29.
Definition supported (c : Z) : Prop := - coord_max <= c <= coord_max.

End Numeric.

(** ** Positions, nodes and blocks *)

(** Modelled from the spec: [v3size], the 3D integer vector of the map
    header (its declaration is not among the sources).  The coordinates
    are taken as [s32], the type the container arithmetic of [numeric.h]
    is written for ([v3s32]). *)
Record v3size : Type := V3 { vX : Z; vY : Z; vZ : Z }.

(** Modelled from the spec: [v2size], a sector position, the X/Z
    projection of a block position. *)
Record v2size : Type := V2 { sX : Z; sY : Z }.

#[global] Instance v3size_eq_dec : EqDecision v3size.
Proof. solve_decision. Defined.

#[global] Instance v2size_eq_dec : EqDecision v2size.
Proof. solve_decision. Defined.

#[global] Instance v3size_countable : Countable v3size.
Proof.
  refine (inj_countable' (λ p, (vX p, vY p, vZ p)) (λ t, V3 t.1.1 t.1.2 t.2) _).
  by intros [].
Defined.

#[global] Instance v2size_countable : Countable v2size.
Proof.
  refine (inj_countable' (λ p, (sX p, sY p)) (λ t, V2 t.1 t.2) _).
  by intros [].
Defined.

(** Component-wise vector arithmetic on [s32] coordinates. *)
Definition v3_add (a b : v3size) : v3size :=
  V3 (S32.add (vX a) (vX b)) (S32.add (vY a) (vY b)) (S32.add (vZ a) (vZ b)).
Definition v3_sub (a b : v3size) : v3size :=
  V3 (S32.sub (vX a) (vX b)) (S32.sub (vY a) (vY b)) (S32.sub (vZ a) (vZ b)).
Definition v3_scale (a : v3size) (k : Z) : v3size :=
  V3 (S32.mul (vX a) k) (S32.mul (vY a) k) (S32.mul (vZ a) k).

(** [inline v3s32 getContainerPos(v3s32 p, s32 d)] of [numeric.h]. *)
Definition getContainerPos_v3 (p : v3size) (d : Z) : v3size :=
  V3 (Numeric.getContainerPos (vX p) d)
     (Numeric.getContainerPos (vY p) d)
     (Numeric.getContainerPos (vZ p) d).

(** Modelled from the spec: the constant [MAP_BLOCKSIZE] of [constants.h],
    the block edge length (a compile-time constant; 16 in the spec's
    scenarios). *)
Definition MAP_BLOCKSIZE : Z := 16.

(** Modelled from the spec: [getNodeBlockPos] of [mapblock.h]; the block
    position is the node position floor-divided by the block edge length,
    which is what [getContainerPos] computes. *)
Definition getNodeBlockPos (p : v3size) : v3size :=
  getContainerPos_v3 p MAP_BLOCKSIZE.

(** Modelled from the spec: content identifiers of [mapnode.h]; the
    "ignore" placeholder and the transparent "air" content. *)
Definition CONTENT_AIR : Z := 126.
Definition CONTENT_IGNORE : Z := 127.

(** Modelled from the spec: [MapNode] of [mapnode.h], a content
    identifier and two parameter bytes. *)
Record MapNode : Type := mkMapNode { param0 : Z; param1 : Z; param2 : Z }.

#[global] Instance MapNode_eq_dec : EqDecision MapNode.
Proof. solve_decision. Defined.

(** The constructor [MapNode(content_t)]. *)
Definition MapNode_of (c : Z) : MapNode := mkMapNode c 0 0.

Definition getContent (n : MapNode) : Z := param0 n.

(** Modelled from the spec: [ModifiedState] of [modifiedstate.h], the
    Clean / Dirty flag of a loaded block. *)
Inductive ModifiedState : Type :=
  | MOD_STATE_CLEAN
  | MOD_STATE_WRITE_NEEDED.

(** Modelled from the spec: [MapBlock] of [mapblock.h], a cube of
    [MAP_BLOCKSIZE]^3 nodes stored linearly (x fastest, then y, then z)
    together with its modified flag.  Node metadata and timers are opaque
    payloads and are left out. *)
Record MapBlock : Type := mkMapBlock {
  data : list MapNode;
  m_modified : ModifiedState
}.

Definition nodecount : nat := 4096.

Definition node_index (x y z : Z) : nat :=
  Z.to_nat (z * (MAP_BLOCKSIZE * MAP_BLOCKSIZE) + y * MAP_BLOCKSIZE + x).

(** The in-block offset of the node stored at a linear index. *)
Definition index_offset (i : nat) : v3size :=
  let i := Z.of_nat i in
  V3 (i mod MAP_BLOCKSIZE)
     ((i / MAP_BLOCKSIZE) mod MAP_BLOCKSIZE)
     (i / (MAP_BLOCKSIZE * MAP_BLOCKSIZE)).

(** Modelled from the spec: the accessors of [MapBlock] used by the map
    ([getNodeNoCheck], [setNodeNoCheck], [raiseModified], [resetModified]);
    no bounds check, the caller passes offsets inside the block. *)
Definition getNodeNoCheck (b : MapBlock) (x y z : Z) : MapNode :=
  default (MapNode_of CONTENT_IGNORE) (data b !! node_index x y z).

Definition setNodeNoCheck (b : MapBlock) (x y z : Z) (n : MapNode) : MapBlock :=
  mkMapBlock (<[node_index x y z := n]> (data b)) (m_modified b).

Definition raiseModified (b : MapBlock) : MapBlock :=
  mkMapBlock (data b) MOD_STATE_WRITE_NEEDED.

Definition resetModified (b : MapBlock) : MapBlock :=
  mkMapBlock (data b) MOD_STATE_CLEAN.

(** A blank block: the ignore content throughout, marked Dirty. *)
Definition blankBlock : MapBlock :=
  mkMapBlock (replicate nodecount (MapNode_of CONTENT_IGNORE))
             MOD_STATE_WRITE_NEEDED.

Arguments blankBlock : simpl never.

(** ** Failures *)

Inductive failure : Type :=
  | InvalidPositionException   (* thrown, may be caught *)
  | FatalError.                (* failed [assert]: the process aborts *)

Inductive result (A : Type) : Type :=
  | Ok (a : A)
  | Err (e : failure).
Arguments Ok {A} a.
Arguments Err {A} e.

(** ** [MapEditEvent] *)

Inductive MapEditEventType : Type :=
  | MEET_ADDNODE
  | MEET_REMOVENODE
  | MEET_SWAPNODE
  | MEET_BLOCK_NODE_METADATA_CHANGED
  | MEET_OTHER.

Record MapEditEvent : Type := mkMapEditEvent {
  type : MapEditEventType;
  p : v3size;
  n : MapNode;
  modified_blocks : list v3size;   (* a [std::vector] that represents a set *)
  is_private_change : bool
}.

(** [MapEditEvent() = default] with the member initialisers of the struct;
    the position has no initialiser and is taken as the origin. *)
Definition MapEditEvent_default : MapEditEvent :=
  mkMapEditEvent MEET_OTHER (V3 0 0 0) (MapNode_of CONTENT_AIR) [] false.

(** [assert(modified_blocks.empty())]: a failed assertion aborts. *)
Definition modified_blocks_empty (ev : MapEditEvent) : bool :=
  match modified_blocks ev with [] => true | _ :: _ => false end.

(** [void setPositionModified(v3size pos)] *)
Definition setPositionModified (pos : v3size) (ev : MapEditEvent)
  : result MapEditEvent :=
  if modified_blocks_empty ev then
    Ok (mkMapEditEvent (type ev) pos (n ev)
          (modified_blocks ev ++ [getNodeBlockPos pos])
          (is_private_change ev))
  else Err FatalError.


(** ** [Map]: block store, sector cache and observers *)

(** [std::set<MapEventReceiver*>]: the observers are held by address, and
    the set keeps its elements in ascending order of the key; the list
    below is that in-order sequence. *)
Fixpoint set_insert (x : Z) (l : list Z) : list Z :=
  match l with
  | [] => [x]
  | y :: l' =>
      if x <? y then x :: y :: l'
      else if x =? y then y :: l'
      else y :: set_insert x l'
  end.

Fixpoint set_erase (x : Z) (l : list Z) : list Z :=
  match l with
  | [] => []
  | y :: l' => if x =? y then l' else y :: set_erase x l'
  end.

(** [MapSector]: the column of loaded blocks at one (X, Z), keyed by Y. *)
Abbreviation MapSector := (gmap Z MapBlock).

(** The data members of [class Map].  [m_sector_cache] and
    [m_sector_cache_p] are one field: [Some p] is a non-null cache pointer
    to the sector stored at [p].  [m_gamedef] and [m_nodedef] play no role
    in the operations below and are left out. *)
Record Map : Type := mkMap {
  m_event_receivers : list Z;
  m_sectors : gmap v2size MapSector;
  m_sector_cache : option v2size
}.

(** Modelled from the spec: [Map::addEventReceiver] and
    [Map::removeEventReceiver] (bodies in [map.cpp]); registration and
    removal by identity in the [std::set] declared in the header. *)
Definition addEventReceiver (m : Map) (event_receiver : Z) : Map :=
  mkMap (set_insert event_receiver (m_event_receivers m))
        (m_sectors m) (m_sector_cache m).

Definition removeEventReceiver (m : Map) (event_receiver : Z) : Map :=
  mkMap (set_erase event_receiver (m_event_receivers m))
        (m_sectors m) (m_sector_cache m).

(** Modelled from the spec: [Map::dispatchEvent] (body in [map.cpp]); the
    event is handed synchronously to every registered observer, walking
    [m_event_receivers].  [onMapEditEvent r ev] is the effect of the
    virtual call on the observer at address [r], on a world state [W]. *)
Definition dispatchEvent {W : Type} (onMapEditEvent : Z → MapEditEvent → W → W)
    (m : Map) (event : MapEditEvent) (w : W) : W :=
  foldl (λ w event_receiver, onMapEditEvent event_receiver event w)
        w (m_event_receivers m).

(** Registering observers one after the other. *)
Definition register_all (m : Map) (observers : list Z) : Map :=
  foldl addEventReceiver m observers.

(** A map without sectors and observers, as the constructor of [Map] leaves it. *)
Definition empty_map : Map := mkMap [] ∅ None.

(** An observer world that records every call, in order. *)
Definition record_call (r : Z) (ev : MapEditEvent)
    (log : list (Z * MapEditEvent)) : list (Z * MapEditEvent) :=
  log ++ [(r, ev)].

(** Modelled from the spec: [Map::getSectorNoGenerate] (body in
    [map.cpp]); the single-entry cache is checked first, then the sector
    map, and a hit in the sector map refreshes the cache. *)
Definition getSectorNoGenerate (m : Map) (p2d : v2size) : Map * option MapSector :=
  if decide (m_sector_cache m = Some p2d) then (m, m_sectors m !! p2d)
  else match m_sectors m !! p2d with
       | None => (m, None)
       | Some sector =>
           (mkMap (m_event_receivers m) (m_sectors m) (Some p2d), Some sector)
       end.

(** Modelled from the spec: [Map::getBlockNoCreateNoEx] (body in
    [map.cpp]); sector position plus vertical index, none if not found. *)
Definition getBlockNoCreateNoEx (m : Map) (p3d : v3size) : Map * option MapBlock :=
  let p2d := V2 (vX p3d) (vZ p3d) in
  match getSectorNoGenerate m p2d with
  | (m', None) => (m', None)
  | (m', Some sector) => (m', sector !! vY p3d)
  end.

(** Modelled from the spec: [Map::getBlockNoCreate], which throws
    [InvalidPositionException] if the block is not found. *)
Definition getBlockNoCreate (m : Map) (p3d : v3size) : Map * result MapBlock :=
  match getBlockNoCreateNoEx m p3d with
  | (m', None) => (m', Err InvalidPositionException)
  | (m', Some block) => (m', Ok block)
  end.

(** [virtual MapBlock * emergeBlock(v3size p, bool create_blank=true)
      { return getBlockNoCreateNoEx(p); }] *)
Definition Map_emergeBlock (m : Map) (p : v3size) (create_blank : bool)
  : Map * option MapBlock :=
  getBlockNoCreateNoEx m p.

(** Blocks are held by pointer; in the store of values this is the block
    object at [p] after a write through its pointer, or a new block linked
    into its sector (the sector is created if absent). *)
Definition putBlock (m : Map) (p3d : v3size) (b : MapBlock) : Map :=
  let p2d := V2 (vX p3d) (vZ p3d) in
  let sector := default ∅ (m_sectors m !! p2d) in
  mkMap (m_event_receivers m)
        (<[p2d := <[vY p3d := b]> sector]> (m_sectors m))
        (m_sector_cache m).

(** The loaded block at a block position, read off the sector map. *)
Definition block_at (m : Map) (p3d : v3size) : option MapBlock :=
  m_sectors m !! V2 (vX p3d) (vZ p3d) ≫= λ sector, sector !! vY p3d.

(** Modelled from the spec: [Map::setNode] (body in [map.cpp]); fails with
    the position-not-loaded condition if the containing block is absent,
    otherwise writes the node and marks the block modified. *)
Definition setNode (m : Map) (p : v3size) (n : MapNode) : Map * result unit :=
  let blockpos := getNodeBlockPos p in
  match getBlockNoCreate m blockpos with
  | (m', Err e) => (m', Err e)
  | (m', Ok block) =>
      let relpos := v3_sub p (v3_scale blockpos MAP_BLOCKSIZE) in
      let block' :=
        raiseModified (setNodeNoCheck block (vX relpos) (vY relpos) (vZ relpos) n) in
      (putBlock m' blockpos block', Ok tt)
  end.

(** Modelled from the spec: [Map::getNode] (body in [map.cpp]); the node at
    [p], or the ignore placeholder if the block is not loaded, with the
    flag [is_valid_position]. *)
Definition getNode (m : Map) (p : v3size) : Map * (MapNode * bool) :=
  let blockpos := getNodeBlockPos p in
  match getBlockNoCreateNoEx m blockpos with
  | (m', None) => (m', (MapNode_of CONTENT_IGNORE, false))
  | (m', Some block) =>
      let relpos := v3_sub p (v3_scale blockpos MAP_BLOCKSIZE) in
      (m', (getNodeNoCheck block (vX relpos) (vY relpos) (vZ relpos), true))
  end.

(** Modelled from the spec: [Map::addNodeAndUpdate] (body in [map.cpp]);
    the base class sets the node and reports the directly edited block
    (lighting is an external collaborator). *)
Definition addNodeAndUpdate (m : Map) (p : v3size) (n : MapNode)
    (remove_metadata : bool) : Map * result (list v3size) :=
  match setNode m p n with
  | (m', Err e) => (m', Err e)
  | (m', Ok _) => (m', Ok [getNodeBlockPos p])
  end.

(** Modelled from the spec: [Map::addNodeWithEvent] (body in [map.cpp]);
    wraps the update and, on success, constructs a [MapEditEvent] and
    dispatches it to every registered observer; no event on failure. *)
Definition addNodeWithEvent {W : Type} (onMapEditEvent : Z → MapEditEvent → W → W)
    (m : Map) (p : v3size) (n : MapNode) (remove_metadata : bool) (w : W)
  : Map * W * bool :=
  match addNodeAndUpdate m p n remove_metadata with
  | (m', Err _) => (m', w, false)
  | (m', Ok blocks) =>
      let event :=
        mkMapEditEvent (if remove_metadata then MEET_ADDNODE else MEET_SWAPNODE)
                       p n blocks false in
      (m', dispatchEvent onMapEditEvent m' event w, true)
  end.

(** A map whose only loaded block is a blank block at the origin. *)
Definition origin_map : Map := putBlock empty_map (V3 0 0 0) blankBlock.

(** ** Loops with early exit *)

(** The body of a loop returns the new state and whether the enclosing
    function goes on ([false]: the function returns from inside the loop). *)
Fixpoint for_each {A St : Type} (l : list A) (body : A → St → St * bool)
    (s : St) : St * bool :=
  match l with
  | [] => (s, true)
  | a :: l' =>
      let '(s', continue) := body a s in
      if continue then for_each l' body s' else (s', false)
  end.

(** [for (auto i = lo; i <= hi; i++) body].  The counters of the loops
    below are block coordinates (at most 2^27 in absolute value, see
    [getContainerPos_block_bound]) or in-block offsets (at most
    [MAP_BLOCKSIZE - 1]), so [i++] never wraps. *)
Definition for_range {St : Type} (lo hi : Z) (body : Z → St → St * bool)
    (s : St) : St * bool :=
  for_each (seqZ lo (hi - lo + 1)) body s.

(** [template<typename F> void forEachNodeInArea(v3size minp, v3size maxp,
    F func)].  The callback works on a state of its own, [St]; the map is
    threaded through the block lookups. *)
Definition forEachNodeInArea {St : Type} (m : Map) (minp maxp : v3size)
    (func : v3size → MapNode → St → St * bool) (s : St) : Map * St :=
  let bpmin := getNodeBlockPos minp in
  let bpmax := getNodeBlockPos maxp in
  fst (for_range (vZ bpmin) (vZ bpmax) (λ bz,
       for_range (vX bpmin) (vX bpmax) (λ bx,
       for_range (vY bpmin) (vY bpmax) (λ by_ '(m, s),
         let bp := V3 bx by_ bz in
         let '(m, block) := getBlockNoCreateNoEx m bp in
         let basep := v3_scale bp MAP_BLOCKSIZE in
         let minx_block :=
           Numeric.rangelim (S32.sub (vX minp) (vX basep)) 0 (MAP_BLOCKSIZE - 1) in
         let miny_block :=
           Numeric.rangelim (S32.sub (vY minp) (vY basep)) 0 (MAP_BLOCKSIZE - 1) in
         let minz_block :=
           Numeric.rangelim (S32.sub (vZ minp) (vZ basep)) 0 (MAP_BLOCKSIZE - 1) in
         let maxx_block :=
           Numeric.rangelim (S32.sub (vX maxp) (vX basep)) 0 (MAP_BLOCKSIZE - 1) in
         let maxy_block :=
           Numeric.rangelim (S32.sub (vY maxp) (vY basep)) 0 (MAP_BLOCKSIZE - 1) in
         let maxz_block :=
           Numeric.rangelim (S32.sub (vZ maxp) (vZ basep)) 0 (MAP_BLOCKSIZE - 1) in
         let '(s, continue) :=
           for_range minz_block maxz_block (λ z_block,
           for_range miny_block maxy_block (λ y_block,
           for_range minx_block maxx_block (λ x_block s,
             let p := v3_add basep (V3 x_block y_block z_block) in
             let n := match block with
                      | Some b => getNodeNoCheck b x_block y_block z_block
                      | None => MapNode_of CONTENT_IGNORE
                      end in
             func p n s))) s in
         ((m, s), continue)))) (m, s)).









(** A callback that records what it is handed and never stops, and one
    that stops at the first node it sees. *)
Definition record_visit (pos : v3size) (node : MapNode)
    (log : list (v3size * MapNode)) : list (v3size * MapNode) * bool :=
  (log ++ [(pos, node)], true).

Definition record_first (pos : v3size) (node : MapNode)
    (log : list (v3size * MapNode)) : list (v3size * MapNode) * bool :=
  (log ++ [(pos, node)], false).





(** ** [ServerMap] *)

(** [class ServerMap : public Map].  The databases are opaque key-value
    stores keyed by block position; [m_emerge] is the queue of the
    external [EmergeManager]. *)
Record ServerMap : Type := mkServerMap {
  base : Map;
  dbase : gmap v3size MapBlock;
  dbase_ro : option (gmap v3size MapBlock);
  m_map_saving_enabled : bool;
  m_emerge : list v3size
}.

Definition with_base (sm : ServerMap) (m : Map) : ServerMap :=
  mkServerMap m (dbase sm) (dbase_ro sm) (m_map_saving_enabled sm) (m_emerge sm).

(** Modelled from the spec: the Persistence Layer's [load]; the read-only
    fallback supplies blocks not found in the primary database, and an I/O
    failure is reported as absent. *)
Definition db_load (sm : ServerMap) (p : v3size) : option MapBlock :=
  match dbase sm !! p with
  | Some b => Some b
  | None => dbase_ro sm ≫= λ ro, ro !! p
  end.

(** Modelled from the spec: [ServerMap::loadBlock(v3size)] (body in
    [map.cpp]); a loaded block enters the Block Store as Clean. *)
Definition loadBlock (sm : ServerMap) (p : v3size) : ServerMap * option MapBlock :=
  match db_load sm p with
  | None => (sm, None)
  | Some b =>
      let block := resetModified b in
      (with_base sm (putBlock (base sm) p block), Some block)
  end.

(** Modelled from the spec: [ServerMap::emergeBlock] (body in [map.cpp]):
    memory, then load from disk, then a blank block filled with
    [CONTENT_IGNORE] if [create_blank]. *)
Definition ServerMap_emergeBlock (sm : ServerMap) (p : v3size) (create_blank : bool)
  : ServerMap * option MapBlock :=
  match getBlockNoCreateNoEx (base sm) p with
  | (m, Some block) => (with_base sm m, Some block)
  | (m, None) =>
      match loadBlock (with_base sm m) p with
      | (sm', Some block) => (sm', Some block)
      | (sm', None) =>
          if create_blank then
            (with_base sm' (putBlock (base sm') p blankBlock), Some blankBlock)
          else (sm', None)
      end
  end.

(** Modelled from the spec: [ServerMap::getBlockOrEmerge] (body in
    [map.cpp]); never blocks, queues the position once if not loaded. *)
Definition getBlockOrEmerge (sm : ServerMap) (p3d : v3size)
  : ServerMap * option MapBlock :=
  match getBlockNoCreateNoEx (base sm) p3d with
  | (m, Some block) => (with_base sm m, Some block)
  | (m, None) =>
      (mkServerMap m (dbase sm) (dbase_ro sm) (m_map_saving_enabled sm)
         (if decide (p3d ∈ m_emerge sm) then m_emerge sm
          else m_emerge sm ++ [p3d]),
       None)
  end.

(** The virtual interface of the map classes. *)
Class MapClass (M : Type) : Type := {
  to_Map : M → Map;
  set_Map : M → Map → M;
  emergeBlock : M → v3size → bool → M * option MapBlock
}.

#[global] Instance Map_MapClass : MapClass Map :=
  {| to_Map m := m; set_Map _ m := m; emergeBlock := Map_emergeBlock |}.

#[global] Instance ServerMap_MapClass : MapClass ServerMap :=
  {| to_Map := base; set_Map := with_base; emergeBlock := ServerMap_emergeBlock |}.

(** ** [MMVManip] *)

(** [#define VMANIP_BLOCK_DATA_INEXIST 1] and
    [#define VMANIP_BLOCK_CONTAINS_CIGNORE 2] *)
Definition VMANIP_BLOCK_DATA_INEXIST : Z := 1.
Definition VMANIP_BLOCK_CONTAINS_CIGNORE : Z := 2.

(** Modelled from the spec: [VoxelArea] of [voxel.h], an axis-aligned box
    of node positions given by its two inclusive corners. *)
Record VoxelArea : Type := mkVoxelArea { MinEdge : v3size; MaxEdge : v3size }.

Definition area_contains (a : VoxelArea) (p : v3size) : bool :=
  (vX (MinEdge a) <=? vX p) && (vX p <=? vX (MaxEdge a)) &&
  (vY (MinEdge a) <=? vY p) && (vY p <=? vY (MaxEdge a)) &&
  (vZ (MinEdge a) <=? vZ p) && (vZ p <=? vZ (MaxEdge a)).

Definition area_extent (a : VoxelArea) : v3size :=
  v3_add (v3_sub (MaxEdge a) (MinEdge a)) (V3 1 1 1).

Definition area_empty (a : VoxelArea) : bool :=
  (vX (area_extent a) <=? 0) || (vY (area_extent a) <=? 0)
  || (vZ (area_extent a) <=? 0).

(** The linear index of a position of the box (x fastest, then y, z). *)
Definition area_index (a : VoxelArea) (p : v3size) : nat :=
  Z.to_nat ((vZ p - vZ (MinEdge a)) * vX (area_extent a) * vY (area_extent a)
            + (vY p - vY (MinEdge a)) * vX (area_extent a)
            + (vX p - vX (MinEdge a))).

(** The positions of the box in the order of the linear buffer. *)
Definition area_positions (a : VoxelArea) : list v3size :=
  z ← seqZ (vZ (MinEdge a)) (vZ (area_extent a));
  y ← seqZ (vY (MinEdge a)) (vY (area_extent a));
  x ← seqZ (vX (MinEdge a)) (vX (area_extent a));
  [V3 x y z].

(** The data members of [MMVManip] and of its base [VoxelManipulator]
    (modelled from the spec: a box with a linear node buffer and a parallel
    flags buffer).  [m_map] is the address of the parent map, [None] for
    a null pointer. *)
Record MMVManip : Type := mkMMVManip {
  m_area : VoxelArea;
  m_data : list MapNode;
  m_flags : list Z;
  m_is_dirty : bool;
  m_map : option Z;
  m_loaded_blocks : gmap v3size Z
}.

(** [inline bool isOrphan() const { return !m_map; }] *)
Definition isOrphan (vm : MMVManip) : bool :=
  match m_map vm with None => true | Some _ => false end.

(** Modelled from the spec: [MMVManip::clone] (body in [map.cpp]); a deep
    copy of buffer, flags and per-block bookkeeping without the Map. *)
Definition clone (vm : MMVManip) : MMVManip :=
  mkMMVManip (m_area vm) (m_data vm) (m_flags vm) (m_is_dirty vm) None
             (m_loaded_blocks vm).

(** Modelled from the spec: [MMVManip::reparent] (body in [map.cpp]). *)
Definition reparent (vm : MMVManip) (map : Z) : MMVManip :=
  mkMMVManip (m_area vm) (m_data vm) (m_flags vm) (m_is_dirty vm) (Some map)
             (m_loaded_blocks vm).

(** Modelled from the spec: reading the window by linear index; the
    ignore placeholder (flags 0) outside the window. *)
Definition vm_getNodeNoEx (vm : MMVManip) (p : v3size) : MapNode :=
  if area_contains (m_area vm) p then
    default (MapNode_of CONTENT_IGNORE) (m_data vm !! area_index (m_area vm) p)
  else MapNode_of CONTENT_IGNORE.

Definition vm_getFlagsNoEx (vm : MMVManip) (p : v3size) : Z :=
  if area_contains (m_area vm) p then
    default 0 (m_flags vm !! area_index (m_area vm) p)
  else 0.

(** The node box of one block. *)
Definition block_area (bp : v3size) : VoxelArea :=
  let basep := v3_scale bp MAP_BLOCKSIZE in
  mkVoxelArea basep
    (v3_add basep (V3 (MAP_BLOCKSIZE - 1) (MAP_BLOCKSIZE - 1) (MAP_BLOCKSIZE - 1))).

Definition area_union (a b : VoxelArea) : VoxelArea :=
  if area_empty a then b
  else mkVoxelArea
         (V3 (vX (MinEdge a) `min` vX (MinEdge b))
             (vY (MinEdge a) `min` vY (MinEdge b))
             (vZ (MinEdge a) `min` vZ (MinEdge b)))
         (V3 (vX (MaxEdge a) `max` vX (MaxEdge b))
             (vY (MaxEdge a) `max` vY (MaxEdge b))
             (vZ (MaxEdge a) `max` vZ (MaxEdge b))).

(** Modelled from the spec: growing the window so that it covers [a];
    old contents are kept, new cells hold the ignore placeholder. *)
Definition addArea (vm : MMVManip) (a : VoxelArea) : MMVManip :=
  let new_area := area_union (m_area vm) a in
  mkMMVManip new_area
    (vm_getNodeNoEx vm <$> area_positions new_area)
    (vm_getFlagsNoEx vm <$> area_positions new_area)
    (m_is_dirty vm) (m_map vm) (m_loaded_blocks vm).

(** Overwrite the cells of block [bp] in the window with [node_of] applied
    to the in-block offset, and record [flags] for the block. *)
Definition window_set_block (vm : MMVManip) (bp : v3size)
    (node_of : v3size → MapNode) (flags : Z) : MMVManip :=
  let basep := v3_scale bp MAP_BLOCKSIZE in
  mkMMVManip (m_area vm)
    ((λ q, if area_contains (block_area bp) q then node_of (v3_sub q basep)
           else vm_getNodeNoEx vm q) <$> area_positions (m_area vm))
    (m_flags vm) (m_is_dirty vm) (m_map vm)
    (<[bp := flags]> (m_loaded_blocks vm)).

Definition emerge_block {M : Type} `{!MapClass M} (load_if_inexistent : bool)
    (st : M * MMVManip) (bp : v3size) : M * MMVManip :=
  let '(m, vm) := st in
  let '(base', in_store) := getBlockNoCreateNoEx (to_Map m) bp in
  let m := set_Map m base' in
  let '(m, block) :=
    match in_store with
    | Some b => (m, Some b)
    | None => if load_if_inexistent then emergeBlock m bp false else (m, None)
    end in
  match block with
  | Some b =>
      (m, window_set_block vm bp (λ o, getNodeNoCheck b (vX o) (vY o) (vZ o)) 0)
  | None =>
      (m, window_set_block vm bp (λ _, MapNode_of CONTENT_IGNORE)
            VMANIP_BLOCK_DATA_INEXIST)
  end.

(** Modelled from the spec: [MMVManip::initialEmerge] (body in [map.cpp]).
    An orphan is rejected; otherwise the window grows to the block range
    and every covered block is copied from the store, loaded, or flagged
    as inexistent with all-ignore content. *)
Definition initialEmerge {M : Type} `{!MapClass M} (vm : MMVManip) (m : M)
    (blockpos_min blockpos_max : v3size) (load_if_inexistent : bool)
  : M * result MMVManip :=
  match m_map vm with
  | None => (m, Err FatalError)
  | Some _ =>
      let vm1 :=
        addArea vm (mkVoxelArea (MinEdge (block_area blockpos_min))
                                (MaxEdge (block_area blockpos_max))) in
      let blocks :=
        z ← seqZ (vZ blockpos_min) (vZ blockpos_max - vZ blockpos_min + 1);
        y ← seqZ (vY blockpos_min) (vY blockpos_max - vY blockpos_min + 1);
        x ← seqZ (vX blockpos_min) (vX blockpos_max - vX blockpos_min + 1);
        [V3 x y z] in
      let '(m', vm2) := foldl (emerge_block load_if_inexistent) (m, vm1) blocks in
      (m', Ok vm2)
  end.

Definition flagged_inexistent (flags : Z) : bool :=
  negb (Z.land flags VMANIP_BLOCK_DATA_INEXIST =? 0).

(** The window's node for linear index [i] of block [bp]. *)
Definition window_node (vm : MMVManip) (bp : v3size) (i : nat) : MapNode :=
  vm_getNodeNoEx vm (v3_add (v3_scale bp MAP_BLOCKSIZE) (index_offset i)).

(** The window's nodes for block [bp], in the block's linear order. *)
Definition window_block_data (vm : MMVManip) (bp : v3size) : list MapNode :=
  window_node vm bp <$> seq 0 nodecount.

(** A stored node is overwritten if [overwrite_generated] is set or the
    existing node is the ignore placeholder. *)
Definition overwrites (overwrite_generated : bool) (existing : MapNode) : bool :=
  overwrite_generated || (getContent existing =? CONTENT_IGNORE).

(** The block made of the window's nodes for [bp], marked Dirty. *)
Definition window_block (vm : MMVManip) (bp : v3size) : MapBlock :=
  mkMapBlock (window_block_data vm bp) MOD_STATE_WRITE_NEEDED.

(** The merge of the window into an existing block, node by node. *)
Definition merge_block (vm : MMVManip) (overwrite_generated : bool)
    (bp : v3size) (b : MapBlock) : MapBlock :=
  mkMapBlock
    (imap (λ i existing,
             if overwrites overwrite_generated existing
             then window_node vm bp i else existing) (data b))
    MOD_STATE_WRITE_NEEDED.

Definition blit_block (vm : MMVManip) (overwrite_generated : bool)
    (st : Map * list v3size) (entry : v3size * Z) : Map * list v3size :=
  let '(m, modified) := st in
  let '(bp, flags) := entry in
  let '(m, block) := getBlockNoCreateNoEx m bp in
  match block with
  | None => (putBlock m bp (window_block vm bp), modified ++ [bp])
  | Some b =>
      if flagged_inexistent flags then
        (putBlock m bp (window_block vm bp), modified ++ [bp])
      else if existsb (overwrites overwrite_generated) (data b) then
        (putBlock m bp (merge_block vm overwrite_generated bp b), modified ++ [bp])
      else (m, modified)
  end.

(** Modelled from the spec: [MMVManip::blitBackAll] (body in [map.cpp]).
    An orphan is rejected.  Every block of the per-block bookkeeping is
    written back: created if it is absent from the store, filled entirely
    if its recorded state was "inexistent", and otherwise overwritten node
    by node where [overwrites] allows; each block that received a write is
    reported in [modified_blocks]. *)
Definition blitBackAll (vm : MMVManip) (m : Map) (overwrite_generated : bool)
  : Map * result (list v3size) :=
  match m_map vm with
  | None => (m, Err FatalError)
  | Some _ =>
      let '(m', modified) :=
        foldl (blit_block vm overwrite_generated) (m, [])
              (map_to_list (m_loaded_blocks vm)) in
      (m', Ok modified)
  end.

(** Example data: a loaded block at the origin whose first node is real
    content and whose other nodes are ignore, and a parented window over
    that block filled with another content. *)
Definition mixed_block : MapBlock :=
  mkMapBlock (MapNode_of 5 :: replicate 4095 (MapNode_of CONTENT_IGNORE))
             MOD_STATE_CLEAN.

Definition mixed_map : Map := putBlock empty_map (V3 0 0 0) mixed_block.

Definition full_window : MMVManip :=
  mkMMVManip (block_area (V3 0 0 0)) (replicate 4096 (MapNode_of 7))
             (replicate 4096 0) false (Some 1) {[ V3 0 0 0 := 0 ]}.

(** The node stored at linear index [i] of the loaded block [bp]. *)
Definition stored_node (m : Map) (bp : v3size) (i : nat) : option MapNode :=
  block_at m bp ≫= λ b, data b !! i.

(** * Properties *)

(** ** Container arithmetic *)

Section s32_facts.

Lemma wrap_s32_id z : S32.in_s32 z → S32.wrap_s32 z = z.
Proof.
  unfold S32.in_s32, S32.s32_min, S32.s32_max, S32.wrap_s32. intros Hz.
  rewrite Z.mod_small; lia.
Qed.

Lemma wrap_s32_range z : S32.in_s32 (S32.wrap_s32 z).
Proof.
  unfold S32.in_s32, S32.s32_min, S32.s32_max, S32.wrap_s32.
  pose proof (Z.mod_pos_bound (z + 2 ^ 31) (2 ^ 32)). lia.
Qed.

(** Wrapping is compatible with addition: an intermediate wrap is
    invisible in the final wrapped sum. *)
Lemma wrap_s32_add_l a b : S32.wrap_s32 (S32.wrap_s32 a + b) = S32.wrap_s32 (a + b).
Proof.
  unfold S32.wrap_s32. f_equal.
  replace ((a + 2 ^ 31) mod 2 ^ 32 - 2 ^ 31 + b + 2 ^ 31)
    with ((a + 2 ^ 31) mod 2 ^ 32 + b) by lia.
  rewrite Zplus_mod_idemp_l. f_equal. lia.
Qed.

(** Truncating division of the shifted dividend is floor division. *)
Lemma quot_shifted_floor p d :
  0 < d → p < 0 → Z.quot (p - d + 1) d = p / d.
Proof.
  intros Hd Hp.
  replace (p - d + 1) with (- (d - 1 - p)) by lia.
  rewrite Z.quot_opp_l by lia.
  rewrite Z.quot_div_nonneg by lia.
  apply Z.div_unique_pos with (r := p + d * ((d - 1 - p) / d)).
  - pose proof (Z.mul_div_le (d - 1 - p) d Hd).
    pose proof (Z.mul_succ_div_gt (d - 1 - p) d Hd). lia.
  - lia.
Qed.

Lemma floor_div_range p d :
  0 < d → S32.in_s32 p → S32.in_s32 (p / d).
Proof.
  unfold S32.in_s32, S32.s32_min, S32.s32_max. intros Hd Hp.
  split.
  - apply Z.div_le_lower_bound; [lia|]. nia.
  - apply Z.div_le_upper_bound; [lia|]. nia.
Qed.

(** Without overflow of [p - d + 1], [getContainerPos] is [p / d]. *)
Lemma getContainerPos_div p d :
  S32.in_s32 p → S32.in_s32 d → 0 < d → S32.s32_min <= p - d + 1 →
  Numeric.getContainerPos p d = p / d.
Proof.
  intros Hp Hdr Hd Hov. unfold Numeric.getContainerPos, S32.div.
  destruct (p >=? 0) eqn:Hsign.
  - rewrite Z.quot_div_nonneg by lia.
    apply wrap_s32_id, floor_div_range; done.
  - assert (p < 0) by lia.
    unfold S32.add, S32.sub.
    rewrite wrap_s32_add_l, (wrap_s32_id (p - d + 1)).
    2:{ unfold S32.in_s32, S32.s32_min, S32.s32_max in *. lia. }
    rewrite quot_shifted_floor by lia.
    apply wrap_s32_id, floor_div_range; done.
Qed.

(** Block coordinates stay far from the ends of [s32], whatever the node
    coordinate: the counters of loops over block coordinates cannot wrap. *)
Lemma getContainerPos_block_bound p :
  S32.in_s32 p →
  - 2 ^ 27 <= Numeric.getContainerPos p MAP_BLOCKSIZE <= 2 ^ 27.
Proof.
  intros Hp. unfold Numeric.getContainerPos, S32.div, MAP_BLOCKSIZE.
  set (x := if p >=? 0 then p else S32.add (S32.sub p 16) 1).
  assert (Hx : S32.in_s32 x).
  { subst x. destruct (p >=? 0); [done|apply wrap_s32_range]. }
  unfold S32.in_s32, S32.s32_min, S32.s32_max in Hx.
  assert (Hq : - 2 ^ 27 <= Z.quot x 16 <= 2 ^ 27).
  { pose proof (Z.quot_rem' x 16) as Hqr.
    pose proof (Z.rem_bound_abs x 16 ltac:(lia)). lia. }
  rewrite wrap_s32_id; [done|].
  unfold S32.in_s32, S32.s32_min, S32.s32_max. lia.
Qed.

Lemma supported_no_overflow p d :
  Numeric.supported p → 0 < d <= Numeric.coord_max →
  S32.in_s32 p ∧ S32.in_s32 d ∧ S32.s32_min <= p - d + 1.
Proof.
  unfold Numeric.supported, Numeric.coord_max, S32.in_s32, S32.s32_min,
    S32.s32_max. lia.
Qed.

End s32_facts.

(** C1.  For every [s32] coordinate [p] and positive edge length [d] for
    which the intermediate [p - d + 1] does not overflow (this holds on the
    whole supported range, see [supported_no_overflow]),
    [getContainerPos p d] is the mathematical floor of [p / d], and
    [getContainerPos p d * d <= p < getContainerPos p d * d + d], also for
    negative [p]. *)
Theorem getContainerPos_floor p d :
  S32.in_s32 p → S32.in_s32 d → 0 < d → S32.s32_min <= p - d + 1 →
  Numeric.getContainerPos p d = p / d ∧
  Numeric.getContainerPos p d * d <= p < Numeric.getContainerPos p d * d + d.
Proof.
  intros Hp Hdr Hd Hov. rewrite getContainerPos_div by done.
  split; [done|].
  pose proof (Z.mul_div_le p d Hd). pose proof (Z.mul_succ_div_gt p d Hd). lia.
Qed.

Lemma getContainerPos_floor_witness :
  Numeric.getContainerPos (-17) 16 = (-17) / 16 ∧
  Numeric.getContainerPos (-17) 16 * 16 <= -17
    < Numeric.getContainerPos (-17) 16 * 16 + 16.
Proof.
  apply (getContainerPos_floor (-17) 16);
    unfold S32.in_s32, S32.s32_min, S32.s32_max; lia.
Defined.

Lemma land_pow2_mask p k : 0 <= k → Z.land p (2 ^ k - 1) = p mod 2 ^ k.
Proof.
  intros Hk. rewrite <- (Z.land_ones p k Hk), Z.ones_equiv. reflexivity.
Qed.

Lemma pow2_in_s32 k : 0 <= k <= 30 → 0 < 2 ^ k <= 2 ^ 30.
Proof.
  intros Hk. split; [apply Z.pow_pos_nonneg; lia|].
  apply Z.pow_le_mono_r; lia.
Qed.

(** C2, as amended.  For every [s32] coordinate [p] and power-of-two edge
    [d = 2^k] for which [p - d + 1] does not overflow,
    [getContainerPosWithOffset] yields the container of [getContainerPos]
    and the offset [p & (d - 1)], which lies in [[0, d)], and
    [container * d + offset = p]. *)
Theorem getContainerPosWithOffset_decompose p d k :
  S32.in_s32 p → 0 <= k <= 30 → d = 2 ^ k → S32.s32_min <= p - d + 1 →
  let '(container, offset) := Numeric.getContainerPosWithOffset p d in
  container = Numeric.getContainerPos p d ∧
  offset = Z.land p (d - 1) ∧
  0 <= offset < d ∧
  container * d + offset = p.
Proof.
  intros Hp Hk -> Hov. pose proof (pow2_in_s32 k Hk) as Hd.
  unfold Numeric.getContainerPosWithOffset.
  fold (Numeric.getContainerPos p (2 ^ k)).
  assert (Hdr : S32.in_s32 (2 ^ k)).
  { unfold S32.in_s32, S32.s32_min, S32.s32_max. lia. }
  pose proof (getContainerPos_div p (2 ^ k) Hp Hdr ltac:(lia) Hov) as Hq.
  unfold S32.bit_and, S32.sub. rewrite wrap_s32_id.
  2:{ unfold S32.in_s32, S32.s32_min, S32.s32_max. lia. }
  rewrite land_pow2_mask by lia.
  pose proof (Z.mod_pos_bound p (2 ^ k)). pose proof (Z.div_mod p (2 ^ k)).
  rewrite Hq. split_and!; [done|done|lia..].
Qed.

Lemma getContainerPosWithOffset_decompose_witness :
  let '(container, offset) := Numeric.getContainerPosWithOffset (-1) 16 in
  container = Numeric.getContainerPos (-1) 16 ∧
  offset = Z.land (-1) (16 - 1) ∧
  0 <= offset < 16 ∧
  container * 16 + offset = -1.
Proof.
  apply (getContainerPosWithOffset_decompose (-1) 16 4);
    unfold S32.in_s32, S32.s32_min, S32.s32_max; lia.
Defined.

(** The scenario of the specification: edge 16, coordinate -1. *)
Example getContainerPosWithOffset_minus_one :
  Numeric.getContainerPosWithOffset (-1) 16 = (-1, 15).
Proof. reflexivity. Qed.

(** C2, as stated, fails at the lower end of [s32]: for [p = -2^31] and
    [d = 16] the intermediate [p - d + 1] overflows, and the container and
    offset no longer decompose [p]. *)
Lemma getContainerPosWithOffset_overflow :
  S32.in_s32 (-2147483648) ∧
  let '(container, offset) := Numeric.getContainerPosWithOffset (-2147483648) 16 in
  container * 16 + offset ≠ -2147483648.
Proof.
  split; [unfold S32.in_s32, S32.s32_min, S32.s32_max; lia|].
  vm_compute. discriminate.
Qed.

(** ** Observers and event dispatch *)

Lemma elem_of_set_insert x y l : y ∈ set_insert x l ↔ y = x ∨ y ∈ l.
Proof.
  induction l as [|z l IH]; simpl.
  - rewrite list_elem_of_singleton, elem_of_nil. tauto.
  - destruct (x <? z) eqn:Hlt; [rewrite !elem_of_cons; tauto|].
    destruct (x =? z) eqn:Heq.
    + apply Z.eqb_eq in Heq as ->. rewrite !elem_of_cons. tauto.
    + rewrite !elem_of_cons, IH. tauto.
Qed.

Lemma set_insert_sorted x l :
  StronglySorted Z.lt l → StronglySorted Z.lt (set_insert x l).
Proof.
  induction 1 as [|z l Hl IH Hz]; simpl.
  - repeat constructor.
  - destruct (x <? z) eqn:Hlt.
    + apply Z.ltb_lt in Hlt. constructor; [by constructor|].
      constructor; [done|]. eapply Forall_impl; [exact Hz|]. intros; simpl in *; lia.
    + destruct (x =? z) eqn:Heq; [by constructor|].
      apply Z.ltb_ge in Hlt. apply Z.eqb_neq in Heq.
      constructor; [done|].
      rewrite Forall_forall in Hz |- *. intros y [->|Hy]%elem_of_set_insert; [lia|auto].
Qed.

Lemma register_all_unfold m observers :
  register_all m observers
  = mkMap (foldl (λ l r, set_insert r l) (m_event_receivers m) observers)
          (m_sectors m) (m_sector_cache m).
Proof.
  revert m. induction observers as [|r rs IH]; intros m; simpl.
  - by destruct m.
  - unfold register_all in IH. by rewrite IH.
Qed.

Lemma registered_sorted l observers :
  StronglySorted Z.lt l →
  StronglySorted Z.lt (foldl (λ l r, set_insert r l) l observers).
Proof.
  revert l. induction observers as [|r rs IH]; intros l Hl; simpl; [done|].
  by apply IH, set_insert_sorted.
Qed.

Lemma elem_of_registered l observers y :
  y ∈ foldl (λ l r, set_insert r l) l observers ↔ y ∈ l ∨ y ∈ observers.
Proof.
  revert l. induction observers as [|r rs IH]; intros l; simpl.
  - rewrite elem_of_nil. tauto.
  - rewrite IH, elem_of_set_insert, elem_of_cons. tauto.
Qed.

Lemma sorted_lt_NoDup (l : list Z) : StronglySorted Z.lt l → NoDup l.
Proof.
  induction 1 as [|z l Hl IH Hz]; constructor; [|done].
  rewrite Forall_forall in Hz. intros Hin. specialize (Hz _ Hin). lia.
Qed.

(** The observer set does not remember the order of registration. *)
Lemma register_all_order_forgotten m observers1 observers2 :
  StronglySorted Z.lt (m_event_receivers m) →
  observers1 ≡ₚ observers2 →
  register_all m observers1 = register_all m observers2.
Proof.
  intros Hm Hperm. rewrite !register_all_unfold. f_equal.
  apply (StronglySorted_unique_strong Z.lt).
  - intros; lia.
  - by apply registered_sorted.
  - by apply registered_sorted.
  - apply NoDup_Permutation.
    + by apply sorted_lt_NoDup, registered_sorted.
    + by apply sorted_lt_NoDup, registered_sorted.
    + intros y. rewrite !elem_of_registered. by rewrite Hperm.
Qed.

(** ** Block lookups leave the store alone *)

Lemma getSectorNoGenerate_spec m p2d :
  m_sectors (getSectorNoGenerate m p2d).1 = m_sectors m ∧
  m_event_receivers (getSectorNoGenerate m p2d).1 = m_event_receivers m ∧
  (getSectorNoGenerate m p2d).2 = m_sectors m !! p2d.
Proof.
  unfold getSectorNoGenerate. case_decide; [done|].
  by destruct (m_sectors m !! p2d).
Qed.

Lemma getBlockNoCreateNoEx_spec m p3d :
  m_sectors (getBlockNoCreateNoEx m p3d).1 = m_sectors m ∧
  m_event_receivers (getBlockNoCreateNoEx m p3d).1 = m_event_receivers m ∧
  (getBlockNoCreateNoEx m p3d).2 = block_at m p3d.
Proof.
  unfold getBlockNoCreateNoEx, block_at.
  destruct (getSectorNoGenerate_spec m (V2 (vX p3d) (vZ p3d))) as (Hs & Hr & Hv).
  destruct (getSectorNoGenerate m _) as [m' [sector|]]; simpl in *;
    rewrite <- Hv; done.
Qed.

(** A lookup changes nothing but, possibly, the sector cache. *)
Lemma getBlockNoCreateNoEx_cache_only m p3d :
  ∃ cache, (getBlockNoCreateNoEx m p3d).1
           = mkMap (m_event_receivers m) (m_sectors m) cache.
Proof.
  unfold getBlockNoCreateNoEx, getSectorNoGenerate.
  case_decide.
  - exists (m_sector_cache m). destruct m; simpl. by destruct (_ !! _).
  - destruct (m_sectors m !! _); simpl; [by eexists|].
    exists (m_sector_cache m). by destruct m.
Qed.

Lemma block_at_same_sectors m1 m2 p3d :
  m_sectors m1 = m_sectors m2 → block_at m1 p3d = block_at m2 p3d.
Proof. unfold block_at. by intros ->. Qed.

Lemma block_at_putBlock m bp b bp' :
  block_at (putBlock m bp b) bp' = if decide (bp = bp') then Some b else block_at m bp'.
Proof.
  unfold block_at, putBlock; simpl.
  destruct (decide (V2 (vX bp) (vZ bp) = V2 (vX bp') (vZ bp'))) as [Heq|Hne].
  - rewrite <- Heq, lookup_insert_eq; simpl.
    destruct (decide (vY bp = vY bp')) as [Hy|Hy].
    + rewrite <- Hy, lookup_insert_eq.
      rewrite decide_True; [done|]. destruct bp, bp'; simpl in *; congruence.
    + rewrite lookup_insert_ne by done.
      rewrite decide_False by congruence.
      by destruct (m_sectors m !! _).
  - rewrite lookup_insert_ne by done.
    rewrite decide_False; [done|]. intros ->. done.
Qed.

Lemma setNode_receivers m p n :
  m_event_receivers (setNode m p n).1 = m_event_receivers m.
Proof.
  unfold setNode, getBlockNoCreate.
  destruct (getBlockNoCreateNoEx_spec m (getNodeBlockPos p)) as (_ & Hr & _).
  by destruct (getBlockNoCreateNoEx m _) as [m' [b|]].
Qed.

Lemma dispatchEvent_record m event log :
  dispatchEvent record_call m event log
  = log ++ ((λ r, (r, event)) <$> m_event_receivers m).
Proof.
  unfold dispatchEvent. generalize (m_event_receivers m) as l.
  intros l. revert log. induction l as [|r l IH]; intros log; simpl.
  - by rewrite app_nil_r.
  - rewrite IH. unfold record_call. by rewrite <- app_assoc.
Qed.

(** C3, as amended.  After the observers [observers] have been registered
    (in that order) on a map without observers, a successful
    [addNodeWithEvent] hands one and the same event, for position [p] and
    node [n], to every registered observer exactly once, in ascending
    order of the observers' addresses: the order of the [std::set], not
    the order of registration. *)
Theorem addNodeWithEvent_delivery_order m0 observers pos node remove_metadata :
  m_event_receivers m0 = [] →
  let r := addNodeWithEvent record_call (register_all m0 observers)
             pos node remove_metadata [] in
  r.2 = true →
  ∃ event,
    p event = pos ∧ n event = node ∧
    r.1.2 = (λ o, (o, event)) <$> r.1.2.*1 ∧
    StronglySorted Z.lt r.1.2.*1 ∧
    NoDup r.1.2.*1 ∧
    ∀ o, o ∈ r.1.2.*1 ↔ o ∈ observers.
Proof.
  intros Hm0 r. subst r. unfold addNodeWithEvent, addNodeAndUpdate.
  pose proof (setNode_receivers (register_all m0 observers) pos node) as Hrec.
  destruct (setNode _ pos node) as [m' [[]|e]]; simpl in *; [|done].
  intros _.
  set (event := mkMapEditEvent
         (if remove_metadata then MEET_ADDNODE else MEET_SWAPNODE)
         pos node [getNodeBlockPos pos] false).
  exists event. split; [done|]. split; [done|].
  rewrite dispatchEvent_record; simpl.
  assert (Hid : ((λ o : Z, (o, event)) <$> m_event_receivers m').*1
                = m_event_receivers m').
  { rewrite <- list_fmap_compose.
    rewrite <- (list_fmap_id (m_event_receivers m')) at 2.
    by apply list_fmap_ext. }
  rewrite !Hid, Hrec, register_all_unfold, Hm0; simpl.
  assert (Hs : StronglySorted Z.lt (foldl (λ l r, set_insert r l) [] observers)).
  { apply registered_sorted. constructor. }
  split_and!; [done|done|by apply sorted_lt_NoDup|].
  intros o. rewrite elem_of_registered, elem_of_nil. tauto.
Qed.

Lemma addNodeWithEvent_delivery_order_witness :
  let r := addNodeWithEvent record_call (register_all origin_map [2; 1])
             (V3 0 0 0) (MapNode_of CONTENT_AIR) true [] in
  ∃ event,
    p event = V3 0 0 0 ∧ n event = MapNode_of CONTENT_AIR ∧
    r.1.2 = (λ o, (o, event)) <$> r.1.2.*1 ∧
    StronglySorted Z.lt r.1.2.*1 ∧
    NoDup r.1.2.*1 ∧
    ∀ o, o ∈ r.1.2.*1 ↔ o ∈ [2; 1].
Proof.
  apply (addNodeWithEvent_delivery_order origin_map [2; 1] (V3 0 0 0)
           (MapNode_of CONTENT_AIR) true).
  - reflexivity.
  - vm_compute. reflexivity.
Defined.

(** C3, as stated, fails: the observer at address 2 is registered before
    the observer at address 1, yet a successful [addNodeWithEvent] calls
    the observer at address 1 first. *)
Lemma dispatch_order_not_registration_order :
  let r := addNodeWithEvent record_call (register_all origin_map [2; 1])
             (V3 0 0 0) (MapNode_of CONTENT_AIR) true [] in
  r.2 = true ∧ r.1.2.*1 = [1; 2] ∧ r.1.2.*1 ≠ [2; 1].
Proof. vm_compute. split; [done|]. split; [done|]. discriminate. Qed.

(** ** [MapEditEvent] initialisation *)







(** The origin-boundary scenario: position (-1, 0, 17) lies in block
    (-1, 0, 1). *)
Example setPositionModified_negative :
  modified_blocks <$>
    (match setPositionModified (V3 (-1) 0 17) MapEditEvent_default with
     | Ok ev => Some ev | Err _ => None end)
  = Some [V3 (-1) 0 1].
Proof. reflexivity. Qed.

(** ** Node-level edits on unloaded positions *)

(** C6.  If the block that contains [pos] is not loaded, [setNode] fails
    with the position-not-loaded condition and the Block Store is left
    exactly as it was: no block is created, no node is written, no block
    is marked modified, and the observers are untouched.  (The lookup may
    refresh the single-entry sector cache, which holds no map content.) *)
Theorem setNode_unloaded_is_noop m pos node :
  block_at m (getNodeBlockPos pos) = None →
  let r := setNode m pos node in
  r.2 = Err InvalidPositionException ∧
  m_sectors r.1 = m_sectors m ∧
  m_event_receivers r.1 = m_event_receivers m ∧
  block_at r.1 (getNodeBlockPos pos) = None ∧
  (∀ bp, block_at r.1 bp = block_at m bp) ∧
  (∀ bp i, stored_node r.1 bp i = stored_node m bp i) ∧
  (∃ cache, r.1 = mkMap (m_event_receivers m) (m_sectors m) cache).
Proof.
  intros Hnone r. subst r. unfold setNode, getBlockNoCreate.
  destruct (getBlockNoCreateNoEx_spec m (getNodeBlockPos pos)) as (Hs & Hr & Hv).
  pose proof (getBlockNoCreateNoEx_cache_only m (getNodeBlockPos pos)) as Hcache.
  destruct (getBlockNoCreateNoEx m _) as [m' [b|]]; simpl in *.
  { congruence. }
  assert (Hb : ∀ bp, block_at m' bp = block_at m bp).
  { intros bp. by apply block_at_same_sectors. }
  split_and!; try done.
  - by rewrite Hb.
  - intros bp i. unfold stored_node. by rewrite Hb.
Qed.

Lemma setNode_unloaded_is_noop_witness :
  let r := setNode origin_map (V3 0 16 0) (MapNode_of CONTENT_AIR) in
  r.2 = Err InvalidPositionException ∧
  m_sectors r.1 = m_sectors origin_map ∧
  m_event_receivers r.1 = m_event_receivers origin_map ∧
  block_at r.1 (getNodeBlockPos (V3 0 16 0)) = None ∧
  (∀ bp, block_at r.1 bp = block_at origin_map bp) ∧
  (∀ bp i, stored_node r.1 bp i = stored_node origin_map bp i) ∧
  (∃ cache, r.1 = mkMap (m_event_receivers origin_map) (m_sectors origin_map) cache).
Proof.
  apply (setNode_unloaded_is_noop origin_map (V3 0 16 0) (MapNode_of CONTENT_AIR)).
  vm_compute. reflexivity.
Defined.

(** On a loaded position [setNode] succeeds and marks the block modified. *)
Example setNode_loaded_succeeds :
  let r := setNode origin_map (V3 1 2 3) (MapNode_of CONTENT_AIR) in
  r.2 = Ok tt ∧
  (getNode r.1 (V3 1 2 3)).2 = (MapNode_of CONTENT_AIR, true) ∧
  m_modified <$> block_at r.1 (V3 0 0 0) = Some MOD_STATE_WRITE_NEEDED.
Proof. vm_compute. done. Qed.

(** ** [emergeBlock] *)

(** C10.  The base class [Map::emergeBlock] is [getBlockNoCreateNoEx],
    whatever [create_blank] is: it returns the loaded block or none and
    leaves the Block Store as it was, so it never creates, loads or
    generates a block; the [ServerMap] override, by contrast, can produce
    a block that was not loaded. *)
Theorem Map_emergeBlock_is_lookup m pos create_blank :
  emergeBlock m pos create_blank = getBlockNoCreateNoEx m pos ∧
  Map_emergeBlock m pos create_blank = getBlockNoCreateNoEx m pos ∧
  (Map_emergeBlock m pos create_blank).2 = block_at m pos ∧
  m_sectors (Map_emergeBlock m pos create_blank).1 = m_sectors m ∧
  (∀ bp, block_at (Map_emergeBlock m pos create_blank).1 bp = block_at m bp) ∧
  (∃ sm pos',
     block_at (base sm) pos' = None ∧
     (ServerMap_emergeBlock sm pos' true).2 = Some blankBlock ∧
     block_at (base (ServerMap_emergeBlock sm pos' true).1) pos' = Some blankBlock).
Proof.
  unfold emergeBlock; simpl. unfold Map_emergeBlock.
  destruct (getBlockNoCreateNoEx_spec m pos) as (Hs & Hr & Hv).
  split_and!; try done.
  - intros bp. by apply block_at_same_sectors.
  - exists (mkServerMap empty_map ∅ None true []), (V3 0 0 0).
    vm_compute. done.
Qed.



(** The three ways of a server map without the block in memory: found on
    disk (and inserted Clean), blank on request, or none. *)
Example ServerMap_emergeBlock_scenarios :
  let on_disk := mkServerMap empty_map {[ V3 0 0 0 := mixed_block ]} None true [] in
  let nowhere := mkServerMap empty_map ∅ None true [] in
  m_modified <$> (ServerMap_emergeBlock on_disk (V3 0 0 0) true).2
    = Some MOD_STATE_CLEAN ∧
  m_modified <$> (ServerMap_emergeBlock nowhere (V3 0 0 0) true).2
    = Some MOD_STATE_WRITE_NEEDED ∧
  (ServerMap_emergeBlock nowhere (V3 0 0 0) false).2 = None ∧
  block_at (base (ServerMap_emergeBlock nowhere (V3 0 0 0) false).1) (V3 0 0 0)
    = None.
Proof. vm_compute. done. Qed.

(** ** Orphan manipulators *)

Lemma orphan_initialEmerge {M : Type} `{!MapClass M} vm (m : M) bmin bmax load :
  isOrphan vm = true → initialEmerge vm m bmin bmax load = (m, Err FatalError).
Proof. unfold isOrphan, initialEmerge. by destruct (m_map vm). Qed.

Lemma orphan_blitBackAll vm m overwrite_generated :
  isOrphan vm = true → blitBackAll vm m overwrite_generated = (m, Err FatalError).
Proof. unfold isOrphan, blitBackAll. by destruct (m_map vm). Qed.

(** C9.  [clone] copies the window (area, node buffer, flags, dirty flag
    and per-block bookkeeping) and drops the Map: the clone is an orphan.
    [initialEmerge] and [blitBackAll] on the clone fail fatally, on a base
    map as on a server map, and change nothing; [reparent] makes the clone
    non-orphan again, with the same contents. *)
Theorem clone_is_orphan vm :
  m_area (clone vm) = m_area vm ∧
  m_data (clone vm) = m_data vm ∧
  m_flags (clone vm) = m_flags vm ∧
  m_is_dirty (clone vm) = m_is_dirty vm ∧
  m_loaded_blocks (clone vm) = m_loaded_blocks vm ∧
  isOrphan (clone vm) = true ∧
  (∀ (m : Map) bmin bmax load,
     initialEmerge (clone vm) m bmin bmax load = (m, Err FatalError)) ∧
  (∀ (sm : ServerMap) bmin bmax load,
     initialEmerge (clone vm) sm bmin bmax load = (sm, Err FatalError)) ∧
  (∀ m overwrite_generated,
     blitBackAll (clone vm) m overwrite_generated = (m, Err FatalError)) ∧
  (∀ map,
     isOrphan (reparent (clone vm) map) = false ∧
     m_map (reparent (clone vm) map) = Some map ∧
     m_data (reparent (clone vm) map) = m_data vm ∧
     m_loaded_blocks (reparent (clone vm) map) = m_loaded_blocks vm).
Proof.
  split_and!; intros;
    first [by apply orphan_initialEmerge | by apply orphan_blitBackAll | done].
Qed.

(** ** Writing a window back *)

Lemma stored_node_same_blocks m1 m2 bp i :
  block_at m1 bp = block_at m2 bp → stored_node m1 bp i = stored_node m2 bp i.
Proof. unfold stored_node. by intros ->. Qed.

Lemma merge_block_keeps vm bp b i existing :
  data b !! i = Some existing →
  getContent existing ≠ CONTENT_IGNORE →
  data (merge_block vm false bp b) !! i = Some existing.
Proof.
  intros Hi Hreal. apply Z.eqb_neq in Hreal.
  unfold merge_block, overwrites. cbn [data orb].
  rewrite list_lookup_imap, Hi. cbn [fmap option_fmap option_map].
  by rewrite Hreal.
Qed.

(** One step of the write-back keeps every real node of a block that is
    not recorded as inexistent. *)
Lemma blit_block_keeps vm m acc bp' flags' bp i existing :
  stored_node m bp i = Some existing →
  getContent existing ≠ CONTENT_IGNORE →
  (bp' = bp → flagged_inexistent flags' = false) →
  stored_node (blit_block vm false (m, acc) (bp', flags')).1 bp i = Some existing.
Proof.
  intros Hnode Hreal Hflag. unfold blit_block.
  destruct (getBlockNoCreateNoEx_spec m bp') as (Hs & _ & Hv).
  destruct (getBlockNoCreateNoEx m bp') as [m1 found]; simpl in *.
  assert (Hb : ∀ q, block_at m1 q = block_at m q).
  { intros q. by apply block_at_same_sectors. }
  assert (Hnode1 : stored_node m1 bp i = Some existing).
  { by rewrite (stored_node_same_blocks m1 m bp i (Hb bp)). }
  subst found. destruct (block_at m bp') as [b|] eqn:Hbp'; simpl.
  - destruct (flagged_inexistent flags') eqn:Hfl; simpl.
    + assert (bp' ≠ bp) by (intros Heq; specialize (Hflag Heq); congruence).
      unfold stored_node. rewrite block_at_putBlock, decide_False by done. done.
    + destruct (existsb _ _); simpl; [|done].
      unfold stored_node. rewrite block_at_putBlock.
      case_decide as Heq; [|done]. subst bp'. simpl.
      apply merge_block_keeps; [|done].
      unfold stored_node in Hnode. by rewrite Hbp' in Hnode.
  - assert (bp' ≠ bp).
    { intros ->. unfold stored_node in Hnode. by rewrite Hbp' in Hnode. }
    unfold stored_node. rewrite block_at_putBlock, decide_False by done. done.
Qed.

Lemma blit_blocks_keep vm entries m acc bp i existing :
  stored_node m bp i = Some existing →
  getContent existing ≠ CONTENT_IGNORE →
  (∀ flags, (bp, flags) ∈ entries → flagged_inexistent flags = false) →
  stored_node (foldl (blit_block vm false) (m, acc) entries).1 bp i = Some existing.
Proof.
  revert m acc. induction entries as [|[bp' flags'] entries IH];
    intros m acc Hnode Hreal Hflags; cbn [foldl]; [done|].
  pose proof (blit_block_keeps vm m acc bp' flags' bp i existing Hnode Hreal) as Hstep.
  destruct (blit_block vm false (m, acc) (bp', flags')) as [m1 acc1].
  apply IH; [|done|].
  - apply Hstep. intros ->. apply Hflags. by left.
  - intros flags Hin. apply Hflags. by right.
Qed.

(** When the bookkeeping agrees with the store (a block recorded as
    inexistent is not loaded), no real node changes at all. *)
Corollary blitBackAll_consistent_keeps vm m :
  (∀ bp flags, m_loaded_blocks vm !! bp = Some flags →
               flagged_inexistent flags = true → block_at m bp = None) →
  ∀ bp i existing,
    stored_node m bp i = Some existing →
    getContent existing ≠ CONTENT_IGNORE →
    stored_node (blitBackAll vm m false).1 bp i = Some existing.
Proof.
  intros Hcons bp i existing Hnode Hreal. unfold blitBackAll.
  destruct (m_map vm); [|done].
  pose proof (blit_blocks_keep vm (map_to_list (m_loaded_blocks vm)) m [] bp i
                existing Hnode Hreal) as Hkeep.
  destruct (foldl _ _ _) as [m' modified]; simpl in *.
  apply Hkeep. intros flags Hin%elem_of_map_to_list.
  destruct (flagged_inexistent flags) eqn:Hfl; [|done].
  unfold stored_node in Hnode. by rewrite (Hcons bp flags Hin Hfl) in Hnode.
Qed.



(** The ignore nodes of the same block do receive the window's data, and
    the block is reported as modified. *)
Example blitBackAll_fills_ignore_nodes :
  let r := blitBackAll full_window mixed_map false in
  stored_node r.1 (V3 0 0 0) 1 = Some (MapNode_of 7) ∧ r.2 = Ok [V3 0 0 0].
Proof. vm_compute. done. Qed.

(** ** Loops *)

Section for_each_facts.
Context {A St : Type}.
Implicit Types (body : A → St → St * bool) (s : St).




End for_each_facts.






(** ** [forEachNodeInArea] *)










(** *** Arithmetic of one axis *)









(** *** The visit sequence on the supported coordinate range *)












(** Across the origin boundary: the position in the unloaded block (-1,0,0)
    is visited with the ignore placeholder, the one in the loaded block
    with its stored node; a callback that returns [false] sees only the
    first position. *)
Example forEachNodeInArea_across_origin :
  (forEachNodeInArea mixed_map (V3 (-1) 0 0) (V3 0 0 0) record_visit []).2
  = [(V3 (-1) 0 0, MapNode_of CONTENT_IGNORE); (V3 0 0 0, MapNode_of 5)] ∧
  (forEachNodeInArea mixed_map (V3 (-1) 0 0) (V3 0 0 0) record_first []).2
  = [(V3 (-1) 0 0, MapNode_of CONTENT_IGNORE)].
Proof. vm_compute. done. Qed.
